(** * The portfolio carousel and its video playback controller (src/main.js)

    A shallow embedding of the two stateful parts of the landing page script:
    the class [PortfolioCarousel] (lines 103-267) and the visibility driven
    video playback (lines 315-374).  The page is one store shared by both:
    the cards, the indicator buttons, the progress bar, the carousel object's
    fields and the window's timer table.  Every event handler of the source is
    a function on that store; the browser's event loop is the relation
    [reachable]. *)

From Stdlib Require Import ZArith Floats DecimalString.
From stdpp Require Import base list strings.

Local Open Scope Z_scope.

(** ** The document *)

(** [element.classList]: an ordered set of class tokens. *)
Module classList.
Definition contains (cl : list string) (tok : string) : bool :=
  bool_decide (tok ∈ cl).
Definition add (tok : string) (cl : list string) : list string :=
  if contains cl tok then cl else cl ++ [tok].
Definition remove (tok : string) (cl : list string) : list string :=
  filter (fun t => t ≠ tok) cl.
End classList.

(** [style.width] of the progress bar.  The script writes ['0%'] and
    [progress + '%']; both are kept as the number in front of the percent
    sign, a binary64 float as in JavaScript. *)
Inductive CssWidth :=
| WidthFromMarkup
| Percent (p : float).

(** A [<video class="portfolioVid">]: whether it is playing and its position. *)
Record Video := mkVideo {
  vid_playing : bool;
  vid_currentTime : Z
}.

(** The tap-to-play overlay, [.video-overlay]. *)
Record Overlay := mkOverlay {
  ov_display : string;
  ov_pointerEvents : string
}.

(** A [.portfolioCard] element with the descendants the script looks up:
    [.pTextContainer] (its class list), [.learn-more-btn], [.close-details-btn],
    [.portfolioVid] and [.video-container] (with its [.video-overlay]). *)
Record Card := mkCard {
  card_classList : list string;
  card_pTextContainer : option (list string);
  card_learnMoreBtn : bool;
  card_closeBtn : bool;
  card_video : option Video;
  card_videoContainer : option (option Overlay)
}.

(** A button of the indicator strip. *)
Record Button := mkButton {
  btn_classList : list string;
  btn_dataset_index : option string;
  btn_aria_label : option string;
  btn_testid : option string
}.

(** The markup before any script runs.  [doc_cards] are the elements matching
    [.portfolioCard] in document order.  [doc_indicatorContainer] holds the
    children of the first [.carousel-indicators] element; buttons around it
    are listed in document order before and after it. *)
Record Document := mkDocument {
  doc_cards : list Card;
  doc_buttonsBefore : list Button;
  doc_indicatorContainer : option (list Button);
  doc_buttonsAfter : list Button;
  doc_progressFill : option CssWidth;
  doc_prevButton : bool;
  doc_nextButton : bool;
  doc_carouselContainer : bool
}.

(** [document.querySelectorAll('.indicator')] *)
Definition is_indicator (b : Button) : Prop := "indicator" ∈ btn_classList b.

Definition querySelectorAll_indicator (d : Document) : list Button :=
  filter is_indicator
    (doc_buttonsBefore d ++ default [] (doc_indicatorContainer d) ++ doc_buttonsAfter d).

(** ** Timers *)

(** The three closures the script hands to [setInterval] and [setTimeout].
    [cb_progress] carries the local variables [progress] and [increment] of
    [startProgress]. *)
Inductive Callback :=
| cb_goToNext
| cb_progress (progress increment : float)
| cb_removePrev.

Record Timer := mkTimer {
  timer_id : nat;
  timer_repeat : bool;
  timer_delay : float;
  timer_cb : Callback
}.

(** ** The page state *)

Record State := mkState {
  cards : list Card;
  indicators : list Button;
  progressFill : option CssWidth;
  prevButton : bool;
  nextButton : bool;
  carouselContainer : bool;
  (* fields of the PortfolioCarousel object *)
  currentIndex : Z;
  autoAdvanceInterval : option nat;
  progressInterval : option nat;
  autoAdvanceDelay : float;
  isPaused : bool;
  (* the window *)
  timers : list Timer;
  nextTimerId : nat;
  isMobile : bool
}.

Definition set_cards (v : list Card) (s : State) : State :=
  mkState v (indicators s) (progressFill s) (prevButton s) (nextButton s)
    (carouselContainer s) (currentIndex s) (autoAdvanceInterval s)
    (progressInterval s) (autoAdvanceDelay s) (isPaused s) (timers s)
    (nextTimerId s) (isMobile s).

Definition set_indicators (v : list Button) (s : State) : State :=
  mkState (cards s) v (progressFill s) (prevButton s) (nextButton s)
    (carouselContainer s) (currentIndex s) (autoAdvanceInterval s)
    (progressInterval s) (autoAdvanceDelay s) (isPaused s) (timers s)
    (nextTimerId s) (isMobile s).

Definition set_progressFill (v : option CssWidth) (s : State) : State :=
  mkState (cards s) (indicators s) v (prevButton s) (nextButton s)
    (carouselContainer s) (currentIndex s) (autoAdvanceInterval s)
    (progressInterval s) (autoAdvanceDelay s) (isPaused s) (timers s)
    (nextTimerId s) (isMobile s).

Definition set_currentIndex (v : Z) (s : State) : State :=
  mkState (cards s) (indicators s) (progressFill s) (prevButton s) (nextButton s)
    (carouselContainer s) v (autoAdvanceInterval s)
    (progressInterval s) (autoAdvanceDelay s) (isPaused s) (timers s)
    (nextTimerId s) (isMobile s).

Definition set_autoAdvanceInterval (v : option nat) (s : State) : State :=
  mkState (cards s) (indicators s) (progressFill s) (prevButton s) (nextButton s)
    (carouselContainer s) (currentIndex s) v
    (progressInterval s) (autoAdvanceDelay s) (isPaused s) (timers s)
    (nextTimerId s) (isMobile s).

Definition set_progressInterval (v : option nat) (s : State) : State :=
  mkState (cards s) (indicators s) (progressFill s) (prevButton s) (nextButton s)
    (carouselContainer s) (currentIndex s) (autoAdvanceInterval s)
    v (autoAdvanceDelay s) (isPaused s) (timers s)
    (nextTimerId s) (isMobile s).

Definition set_isPaused (v : bool) (s : State) : State :=
  mkState (cards s) (indicators s) (progressFill s) (prevButton s) (nextButton s)
    (carouselContainer s) (currentIndex s) (autoAdvanceInterval s)
    (progressInterval s) (autoAdvanceDelay s) v (timers s)
    (nextTimerId s) (isMobile s).

Definition set_timers (v : list Timer) (s : State) : State :=
  mkState (cards s) (indicators s) (progressFill s) (prevButton s) (nextButton s)
    (carouselContainer s) (currentIndex s) (autoAdvanceInterval s)
    (progressInterval s) (autoAdvanceDelay s) (isPaused s) v
    (nextTimerId s) (isMobile s).

Definition set_nextTimerId (v : nat) (s : State) : State :=
  mkState (cards s) (indicators s) (progressFill s) (prevButton s) (nextButton s)
    (carouselContainer s) (currentIndex s) (autoAdvanceInterval s)
    (progressInterval s) (autoAdvanceDelay s) (isPaused s) (timers s)
    v (isMobile s).

(** [window.setInterval] / [window.setTimeout]: the handle is a fresh positive
    integer. *)
Definition setTimer (rep : bool) (cb : Callback) (delay : float) (s : State)
  : nat * State :=
  let id := nextTimerId s in
  (id, set_nextTimerId (S id)
         (set_timers (timers s ++ [mkTimer id rep delay cb]) s)).

Definition setInterval := setTimer true.
Definition setTimeout := setTimer false.

(** [window.clearInterval] *)
Definition clearInterval (id : nat) (s : State) : State :=
  set_timers (filter (fun t => timer_id t ≠ id) (timers s)) s.

(** Truthiness of a timer handle: [null] and [0] are falsy. *)
Definition truthy (h : option nat) : option nat :=
  match h with
  | Some (S n) => Some (S n)
  | _ => None
  end.

(** [nodeList[i]] for a JavaScript number [i]: [undefined] out of range. *)
Definition nodeAt {A} (l : list A) (i : Z) : option A :=
  if i <? 0 then None else l !! Z.to_nat i.

Definition alterAt {A} (f : A -> A) (i : Z) (l : list A) : list A :=
  if i <? 0 then l else alter f (Z.to_nat i) l.

(** How a handler ends: normally, or with an uncaught [TypeError] (reading a
    property of [undefined]).  Either way the mutations made so far stay. *)
Inductive Completion :=
| Normal (s : State)
| TypeError (s : State).

Definition state_of (c : Completion) : State :=
  match c with Normal s | TypeError s => s end.

Definition on_card_classList (f : list string -> list string) (c : Card) : Card :=
  mkCard (f (card_classList c)) (card_pTextContainer c) (card_learnMoreBtn c)
    (card_closeBtn c) (card_video c) (card_videoContainer c).

Definition on_pTextContainer (f : list string -> list string) (c : Card) : Card :=
  mkCard (card_classList c) (f <$> card_pTextContainer c) (card_learnMoreBtn c)
    (card_closeBtn c) (card_video c) (card_videoContainer c).

Definition on_btn_classList (f : list string -> list string) (b : Button) : Button :=
  mkButton (f (btn_classList b)) (btn_dataset_index b) (btn_aria_label b)
    (btn_testid b).

(** ** The class PortfolioCarousel *)

(** [Number.prototype.toString] on a non-negative integer. *)
Definition toString (i : nat) : string := NilEmpty.string_of_uint (Nat.to_uint i).

(** The button built in the body of the constructor's [for] loop. *)
Definition createIndicator (i : nat) : Button :=
  mkButton ["indicator"]
    (Some (toString i))
    (Some ("Go to slide " +:+ toString (i + 1)%nat))
    (Some ("indicator-" +:+ toString i)).

(** [for (let i = startingIndex; i < this.cards.length; i++) appendChild(btn)],
    with [todo = this.cards.length - i] iterations left. *)
Fixpoint backfill (todo i : nat) (children : list Button) : list Button :=
  match todo with
  | O => children
  | S k => backfill k (S i) (children ++ [createIndicator i])
  end.

(** The markup after the constructor's backfill (lines 118-131). *)
Definition backfilled (d : Document) : Document :=
  match doc_indicatorContainer d with
  | Some children =>
      if (length children <? length (doc_cards d))%nat
      then mkDocument (doc_cards d) (doc_buttonsBefore d)
             (Some (backfill (length (doc_cards d) - length children)%nat
                      (length children) children))
             (doc_buttonsAfter d) (doc_progressFill d) (doc_prevButton d)
             (doc_nextButton d) (doc_carouselContainer d)
      else d
  | None => d
  end.

Definition resetProgress (s : State) : State :=
  let s := match truthy (progressInterval s) with
           | Some id => clearInterval id s
           | None => s
           end in
  match progressFill s with
  | Some _ => set_progressFill (Some (Percent 0)) s
  | None => s
  end.

Definition startProgress (s : State) : State :=
  let increment := (100 / (autoAdvanceDelay s / 100))%float in
  let '(id, s) := setInterval (cb_progress 0 increment) 100 s in
  set_progressInterval (Some id) s.

Definition startAutoAdvance (s : State) : State :=
  let s := resetProgress s in
  let s := startProgress s in
  let '(id, s) := setInterval cb_goToNext (autoAdvanceDelay s) s in
  set_autoAdvanceInterval (Some id) s.

Definition tempPauseAutoAdvance (s : State) : State :=
  let s := match truthy (autoAdvanceInterval s) with
           | Some id => set_autoAdvanceInterval None (clearInterval id s)
           | None => s
           end in
  match truthy (progressInterval s) with
  | Some id => set_progressInterval None (clearInterval id s)
  | None => s
  end.

Definition pauseAutoAdvance (s : State) : State :=
  tempPauseAutoAdvance (set_isPaused true s).

Definition resumeAutoAdvance (s : State) : State :=
  let s := if isPaused s then s else startAutoAdvance (pauseAutoAdvance s) in
  set_isPaused false s.

Definition goToSlide (index : Z) (s : State) : Completion :=
  match nodeAt (cards s) (currentIndex s) with
  | None => Normal s
  | Some _ =>
      let s := set_cards (on_pTextContainer (classList.remove "expanded") <$> cards s) s in
      let s := set_cards (alterAt (on_card_classList (classList.remove "active"))
                            (currentIndex s) (cards s)) s in
      let s := set_cards (alterAt (on_card_classList (classList.add "prev"))
                            (currentIndex s) (cards s)) s in
      let s := snd (setTimeout cb_removePrev 600 s) in
      let s := set_currentIndex index s in
      match nodeAt (cards s) (currentIndex s) with
      | None => TypeError s
      | Some _ =>
          let s := set_cards (alterAt (on_card_classList (classList.add "active"))
                                (currentIndex s) (cards s)) s in
          let s := set_indicators
                     (on_btn_classList (classList.remove "active") <$> indicators s) s in
          let s := set_indicators
                     (alterAt (on_btn_classList (classList.add "active"))
                        (currentIndex s) (indicators s)) s in
          let s := resetProgress s in
          Normal (resumeAutoAdvance s)
      end
  end.

(** [%] on integer-valued numbers is the truncating remainder.  With no card
    JavaScript yields [NaN]; [goToSlide] then returns at its first guard
    whatever the index, as it does here. *)
Definition goToNext (s : State) : Completion :=
  goToSlide (Z.rem (currentIndex s + 1) (Z.of_nat (length (cards s)))) s.

Definition goToPrevious (s : State) : Completion :=
  goToSlide (Z.rem (currentIndex s - 1 + Z.of_nat (length (cards s)))
               (Z.of_nat (length (cards s)))) s.

(** [init]: the three [init...] methods only attach listeners (see [dispatch]);
    [startAutoAdvance] is the one that changes the state. *)
Definition init (s : State) : State := startAutoAdvance s.

(** [new PortfolioCarousel()] on the markup [d]. *)
Definition new_PortfolioCarousel (mobile : bool) (d : Document) : State :=
  let s := mkState (doc_cards d) (querySelectorAll_indicator (backfilled d))
             (doc_progressFill d) (doc_prevButton d) (doc_nextButton d)
             (doc_carouselContainer d)
             0 None None 9000%float false [] 1%nat mobile in
  match cards s with
  | [] => s
  | _ :: _ => init s
  end.

(** The [toggle] closure of [initDetailsToggle] for card [c]. *)
Definition toggle (c : nat) (s : State) : State :=
  match cards s !! c with
  | Some card =>
      match card_pTextContainer card with
      | Some textContainer =>
          if classList.contains textContainer "expanded"
          then resumeAutoAdvance
                 (set_cards (alter (on_pTextContainer (classList.remove "expanded")) c
                               (cards s)) s)
          else pauseAutoAdvance
                 (set_cards (alter (on_pTextContainer (classList.add "expanded")) c
                               (cards s)) s)
      | None => s
      end
  | None => s
  end.

(** [card.querySelector('.pTextContainer')?.classList.contains('expanded')];
    [undefined] counts as not expanded. *)
Definition isExpanded (card : Card) : bool :=
  match card_pTextContainer card with
  | Some textContainer => classList.contains textContainer "expanded"
  | None => false
  end.

Definition on_mouseenter (s : State) : Completion :=
  match nodeAt (cards s) (currentIndex s) with
  | None => TypeError s
  | Some currentCard =>
      Normal (if isExpanded currentCard then s else tempPauseAutoAdvance s)
  end.

Definition on_mouseleave (s : State) : Completion :=
  match nodeAt (cards s) (currentIndex s) with
  | None => TypeError s
  | Some currentCard =>
      Normal (if isExpanded currentCard then s else resumeAutoAdvance s)
  end.

(** One tick of the [startProgress] closure. *)
Definition progress_tick (progress increment : float) : float :=
  let progress := (progress + increment)%float in
  if (100 <=? progress)%float then 100%float else progress.

Definition set_timer_cb (cb : Callback) (t : Timer) : Timer :=
  mkTimer (timer_id t) (timer_repeat t) (timer_delay t) cb.

(** A timeout is spent by running; an interval stays. *)
Definition spend (t : Timer) (s : State) : State :=
  if timer_repeat t then s else clearInterval (timer_id t) s.

(** The window runs the callback of the live timer [id]. *)
Definition fire (id : nat) (s : State) : Completion :=
  match list_find (fun t => timer_id t = id) (timers s) with
  | None => Normal s
  | Some (slot, t) =>
      match timer_cb t with
      | cb_goToNext => goToNext (spend t s)
      | cb_progress progress increment =>
          let progress := progress_tick progress increment in
          let s := set_timers
                     (alter (set_timer_cb (cb_progress progress increment)) slot
                        (timers s)) s in
          let s := spend t s in
          Normal (match progressFill s with
                  | Some _ => set_progressFill (Some (Percent progress)) s
                  | None => s
                  end)
      | cb_removePrev =>
          let s := spend t s in
          match nodeAt (cards s) (currentIndex s) with
          | None => TypeError s
          | Some _ =>
              Normal (set_cards (alterAt (on_card_classList (classList.remove "prev"))
                                   (currentIndex s) (cards s)) s)
          end
      end
  end.

(** ** Video playback (the last DOMContentLoaded handler) *)

(** [Array.from(cards).indexOf(document.querySelector('.portfolioCard.active'))],
    the position of the first card carrying [active], and 0 when
    [querySelector] finds none. *)
Definition is_active (c : Card) : Prop := "active" ∈ card_classList c.

Definition getCurrentIndex (s : State) : nat :=
  match list_find is_active (cards s) with
  | Some (i, active) => i
  | None => O
  end.

Definition on_video (f : Video -> Video) (c : Card) : Card :=
  mkCard (card_classList c) (card_pTextContainer c) (card_learnMoreBtn c)
    (card_closeBtn c) (f <$> card_video c) (card_videoContainer c).

Definition on_overlay (f : Overlay -> Overlay) (c : Card) : Card :=
  mkCard (card_classList c) (card_pTextContainer c) (card_learnMoreBtn c)
    (card_closeBtn c) (card_video c)
    (option_map (option_map f) (card_videoContainer c)).

Definition play (v : Video) : Video := mkVideo true (vid_currentTime v).
Definition pause (v : Video) : Video := mkVideo false (vid_currentTime v).
Definition rewind (v : Video) : Video := mkVideo (vid_playing v) 0.
Definition set_display (d : string) (o : Overlay) : Overlay :=
  mkOverlay d (ov_pointerEvents o).

(** Whether the [forEach] body goes past [if (!video || !container) return]. *)
Definition has_media (c : Card) : bool :=
  match card_video c, card_videoContainer c with
  | Some _, Some _ => true
  | _, _ => false
  end.

(** The set-up part of the [forEach] body: on mobile the overlay is created
    when missing and made tappable. *)
Definition setup_card (mobile : bool) (c : Card) : Card :=
  if has_media c && mobile then
    mkCard (card_classList c) (card_pTextContainer c) (card_learnMoreBtn c)
      (card_closeBtn c) (card_video c)
      ((fun overlay => Some (mkOverlay (default "" (ov_display <$> overlay)) "auto"))
         <$> card_videoContainer c)
  else c.

Definition video_setup (s : State) : State :=
  set_cards (setup_card (isMobile s) <$> cards s) s.

(** The overlay's click listener (lines 341-344). *)
Definition on_overlay_click (index : nat) (s : State) : State :=
  set_cards (alter (fun c => on_video play (on_overlay (set_display "none") c))
               index (cards s)) s.

(** The IntersectionObserver callback of card [index] for one entry. *)
Definition on_intersection (index : nat) (isIntersecting : bool) (s : State) : State :=
  let currentIndex := getCurrentIndex s in
  if isMobile s then
    if negb isIntersecting || negb (index =? currentIndex)%nat then
      set_cards (alter (fun c => on_overlay (set_display "")
                                   (on_video rewind (on_video pause c)))
                   index (cards s)) s
    else s
  else
    if isIntersecting && (index =? currentIndex)%nat then
      set_cards (alter (on_video play) index (cards s)) s
    else
      set_cards (alter (fun c => on_video rewind (on_video pause c)) index (cards s)) s.

(** ** The event loop *)

Inductive Event :=
| ClickPrev
| ClickNext
| ClickIndicator (i : nat)
| ClickLearnMore (c : nat)
| ClickClose (c : nat)
| MouseEnter
| MouseLeave
| TimerFires (id : nat)
| Intersection (c : nat) (isIntersecting : bool)
| TapOverlay (c : nat).

(** [init] ran, so the carousel's listeners are attached. *)
Definition carousel_live (s : State) : bool :=
  match cards s with [] => false | _ :: _ => true end.

Definition card_has (p : Card -> bool) (c : nat) (s : State) : bool :=
  match cards s !! c with Some card => p card | None => false end.

(** The listener the event reaches, if the script attached one. *)
Definition dispatch (e : Event) (s : State) : Completion :=
  match e with
  | ClickPrev =>
      if carousel_live s && prevButton s then goToPrevious s else Normal s
  | ClickNext =>
      if carousel_live s && nextButton s then goToNext s else Normal s
  | ClickIndicator i =>
      if carousel_live s && bool_decide (i < length (indicators s))%nat
      then goToSlide (Z.of_nat i) s else Normal s
  | ClickLearnMore c =>
      if carousel_live s && card_has card_learnMoreBtn c s
      then Normal (toggle c s) else Normal s
  | ClickClose c =>
      if carousel_live s && card_has card_closeBtn c s
      then Normal (toggle c s) else Normal s
  | MouseEnter =>
      if carousel_live s && carouselContainer s then on_mouseenter s else Normal s
  | MouseLeave =>
      if carousel_live s && carouselContainer s then on_mouseleave s else Normal s
  | TimerFires id => fire id s
  | Intersection c isIntersecting =>
      if card_has has_media c s then Normal (on_intersection c isIntersecting s)
      else Normal s
  | TapOverlay c =>
      if isMobile s && card_has has_media c s then Normal (on_overlay_click c s)
      else Normal s
  end.

Definition step (s : State) (e : Event) : State := state_of (dispatch e s).

(** The page once both DOMContentLoaded handlers have run. *)
Definition pageLoad (mobile : bool) (d : Document) : State :=
  video_setup (new_PortfolioCarousel mobile d).

Definition run (s : State) (es : list Event) : State := foldl step s es.

Inductive reachable (mobile : bool) (d : Document) : State -> Prop :=
| reach_load : reachable mobile d (pageLoad mobile d)
| reach_step s e : reachable mobile d s -> reachable mobile d (step s e).

(** * Properties *)

(** ** The timer table *)

Definition is_auto (t : Timer) : bool :=
  match timer_cb t with cb_goToNext => true | _ => false end.

Definition is_progress (t : Timer) : bool :=
  match timer_cb t with cb_progress _ _ => true | _ => false end.

(** The live timers of each of the two carousel kinds. *)
Definition autoAdvanceTimers (s : State) : list Timer := filter is_auto (timers s).
Definition progressTimers (s : State) : list Timer := filter is_progress (timers s).

(** Neither carousel timer is live. *)
Definition quiet (s : State) : Prop :=
  forall t, t ∈ timers s -> ¬ is_auto t ∧ ¬ is_progress t.

(** Handles are positive, below the next one to be handed out, and unique. *)
Record timers_wf (s : State) : Prop := {
  wf_next : (0 < nextTimerId s)%nat;
  wf_ids : forall t, t ∈ timers s -> (0 < timer_id t < nextTimerId s)%nat;
  wf_nodup : NoDup (timer_id <$> timers s)
}.

(** The carousel's handles point at its live timers, and a paused carousel
    has none. *)
Record carousel_inv (s : State) : Prop := {
  inv_wf : timers_wf s;
  inv_auto : forall t, t ∈ timers s -> is_auto t ->
             autoAdvanceInterval s = Some (timer_id t);
  inv_progress : forall t, t ∈ timers s -> is_progress t ->
                 progressInterval s = Some (timer_id t);
  inv_paused : isPaused s = true -> quiet s
}.

(** ** Markers *)

Definition btn_active (b : Button) : Prop := "active" ∈ btn_classList b.

(** Exactly one element of [l] carries the marker [P], the one at ordinal 0. *)
Definition only_first {A} (P : A -> Prop) (l : list A) : Prop :=
  match l with
  | [] => False
  | x :: rest => P x ∧ Forall (fun y => ¬ P y) rest
  end.

(** The indicators the constructor's loop builds for the markup [d]. *)
Definition synthesized (d : Document) : list Button :=
  match doc_indicatorContainer d with
  | Some children =>
      createIndicator <$>
        seq (length children) (length (doc_cards d) - length children)
  | None => []
  end.

(** ** Runs *)

(** The current index after each of [n] calls of [goToNext] in a row. *)
Fixpoint nexts (n : nat) (s : State) : list Z :=
  match n with
  | O => []
  | S k => let s' := state_of (goToNext s) in currentIndex s' :: nexts k s'
  end.

(** The closure variable [progress] of [startProgress] after [n] ticks. *)
Definition ticks (n : nat) (increment : float) : float :=
  Nat.iter n (fun progress => progress_tick progress increment) 0%float.

(** The window fires timer [id] [n] times in a row. *)
Definition ticking (n id : nat) (s : State) : State :=
  Nat.iter n (fun s => step s (TimerFires id)) s.

(** ** Sample markup *)

Definition slide (cl : list string) : Card :=
  mkCard cl (Some ["pTextContainer"]) true true
    (Some (mkVideo false 0)) (Some None).

Definition dot (cl : list string) : Button := mkButton cl None None None.

(** Two slides with a video each and their two indicators, slide 0 marked. *)
Definition twoSlides : Document :=
  mkDocument
    [slide ["portfolioCard"; "active"]; slide ["portfolioCard"]]
    [] (Some [dot ["indicator"; "active"]; dot ["indicator"]]) []
    (Some WidthFromMarkup) true true true.

(** Three slides, one indicator in the strip. *)
Definition threeSlides : Document :=
  mkDocument
    [slide ["portfolioCard"; "active"]; slide ["portfolioCard"];
     slide ["portfolioCard"]]
    [] (Some [dot ["indicator"; "active"]]) []
    (Some WidthFromMarkup) true true true.

(** One slide that the markup does not mark, and no indicator strip. *)
Definition unmarked : Document :=
  mkDocument [slide ["portfolioCard"]; slide ["portfolioCard"]]
    [] None [] (Some WidthFromMarkup) true true true.

Ltac cases_handles s :=
  destruct s as [? ? ? ? ? ? ? [[|?]|] [[|?]|] ? ? ? ? ?];
  unfold tempPauseAutoAdvance, truthy; simpl.

Section TimerTable.

Lemma elem_of_clearInterval id s t :
  t ∈ timers (clearInterval id s) <-> t ∈ timers s ∧ timer_id t ≠ id.
Proof.
  unfold clearInterval; simpl. rewrite list_elem_of_filter. tauto.
Qed.

Lemma clearInterval_wf id s : timers_wf s -> timers_wf (clearInterval id s).
Proof.
  intros [Hpos Hids Hnd]; split.
  - exact Hpos.
  - intros t Ht. apply elem_of_clearInterval in Ht as [Ht _]. auto.
  - unfold clearInterval; simpl.
    apply (sublist_NoDup _ _ Hnd), fmap_sublist, sublist_filter.
Qed.

Lemma elem_of_setTimer rep cb delay s t :
  t ∈ timers (snd (setTimer rep cb delay s)) <->
  t ∈ timers s ∨ t = mkTimer (nextTimerId s) rep delay cb.
Proof.
  unfold setTimer; simpl. rewrite elem_of_app, list_elem_of_singleton. tauto.
Qed.

Lemma setTimer_wf rep cb delay s :
  timers_wf s -> timers_wf (snd (setTimer rep cb delay s)).
Proof.
  intros [Hpos Hids Hnd]; split.
  - simpl. lia.
  - intros t Ht. apply elem_of_setTimer in Ht as [Ht | ->].
    + specialize (Hids t Ht). simpl. lia.
    + simpl. lia.
  - unfold setTimer; simpl. rewrite fmap_app. apply NoDup_app.
    split; [exact Hnd|]. split; [|apply NoDup_singleton].
    intros x Hx Hx'. apply list_elem_of_singleton in Hx'. subst x.
    apply list_elem_of_fmap in Hx as (t & Heq & Ht).
    specialize (Hids t Ht). simpl in Heq. lia.
Qed.

End TimerTable.

(** The two invariants read the window and the carousel's timer fields only. *)
Lemma timers_wf_ext s s' :
  timers s' = timers s -> nextTimerId s' = nextTimerId s ->
  timers_wf s -> timers_wf s'.
Proof.
  intros Ht Hn [Hpos Hids Hnd]; split; rewrite ?Ht, ?Hn; auto.
Qed.

Lemma carousel_inv_ext s s' :
  timers s' = timers s -> nextTimerId s' = nextTimerId s ->
  autoAdvanceInterval s' = autoAdvanceInterval s ->
  progressInterval s' = progressInterval s ->
  isPaused s' = isPaused s ->
  carousel_inv s -> carousel_inv s'.
Proof.
  intros Ht Hn Ha Hp Hq [Hwf Hauto Hprog Hpaused]; split.
  - by apply (timers_wf_ext s).
  - intros t; rewrite Ht, Ha; auto.
  - intros t; rewrite Ht, Hp; auto.
  - rewrite Hq. intros Hq' t. rewrite Ht. by apply Hpaused.
Qed.

Section Pausing.

Lemma elem_of_tempPause s t :
  t ∈ timers (tempPauseAutoAdvance s) <->
  t ∈ timers s ∧ truthy (autoAdvanceInterval s) ≠ Some (timer_id t)
               ∧ truthy (progressInterval s) ≠ Some (timer_id t).
Proof.
  cases_handles s; rewrite ?list_elem_of_filter; intuition congruence.
Qed.

Lemma tempPause_wf s : timers_wf s -> timers_wf (tempPauseAutoAdvance s).
Proof.
  intros [Hpos Hids Hnd]. split.
  - by cases_handles s.
  - intros t Ht. apply elem_of_tempPause in Ht as [Ht _].
    specialize (Hids t Ht). by cases_handles s.
  - assert (timer_id <$> timers (tempPauseAutoAdvance s) `sublist_of`
            timer_id <$> timers s) as Hsub.
    { apply fmap_sublist.
      cases_handles s; repeat (etrans; [apply sublist_filter|]); done. }
    exact (sublist_NoDup _ _ Hnd Hsub).
Qed.

Lemma tempPause_frame s :
  let s' := tempPauseAutoAdvance s in
  cards s' = cards s ∧ indicators s' = indicators s ∧
  progressFill s' = progressFill s ∧ currentIndex s' = currentIndex s ∧
  isPaused s' = isPaused s ∧ nextTimerId s' = nextTimerId s ∧
  autoAdvanceDelay s' = autoAdvanceDelay s.
Proof. by cases_handles s. Qed.

(** With the handles pointing at the live timers, pausing stops both. *)
Lemma tempPause_quiet s :
  timers_wf s ->
  (forall t, t ∈ timers s -> is_auto t -> autoAdvanceInterval s = Some (timer_id t)) ->
  (forall t, t ∈ timers s -> is_progress t -> progressInterval s = Some (timer_id t)) ->
  quiet (tempPauseAutoAdvance s).
Proof.
  intros [_ Hids _] Hauto Hprog t Ht.
  apply elem_of_tempPause in Ht as (Ht & Ha & Hp).
  specialize (Hids t Ht). specialize (Hauto t Ht). specialize (Hprog t Ht).
  split; intros Hk.
  - apply Ha. rewrite (Hauto Hk). destruct (timer_id t); [lia|done].
  - apply Hp. rewrite (Hprog Hk). destruct (timer_id t); [lia|done].
Qed.

Lemma quiet_inv s : timers_wf s -> quiet s -> carousel_inv s.
Proof.
  intros Hwf Hq; split; [done| | |done].
  - intros t Ht Hk. by destruct (Hq t Ht).
  - intros t Ht Hk. by destruct (Hq t Ht).
Qed.

Lemma pauseAutoAdvance_inv s :
  carousel_inv s -> carousel_inv (pauseAutoAdvance s) ∧ quiet (pauseAutoAdvance s).
Proof.
  intros [Hwf Hauto Hprog _].
  assert (quiet (pauseAutoAdvance s)) as Hq.
  { apply tempPause_quiet; [by apply (timers_wf_ext s)|done|done]. }
  split; [|done]. apply quiet_inv; [|done].
  apply tempPause_wf. by apply (timers_wf_ext s).
Qed.

Lemma tempPause_inv s :
  carousel_inv s ->
  carousel_inv (tempPauseAutoAdvance s) ∧ quiet (tempPauseAutoAdvance s).
Proof.
  intros [Hwf Hauto Hprog _].
  assert (quiet (tempPauseAutoAdvance s)) as Hq by by apply tempPause_quiet.
  split; [|done]. apply quiet_inv; [|done]. by apply tempPause_wf.
Qed.

End Pausing.

Section Starting.

Lemma elem_of_resetProgress s t :
  t ∈ timers (resetProgress s) <->
  t ∈ timers s ∧ truthy (progressInterval s) ≠ Some (timer_id t).
Proof.
  destruct s as [? ? [?|] ? ? ? ? ? [[|?]|] ? ? ? ? ?];
    unfold resetProgress, truthy; simpl;
    rewrite ?list_elem_of_filter; intuition congruence.
Qed.

Lemma resetProgress_frame s :
  let s' := resetProgress s in
  cards s' = cards s ∧ indicators s' = indicators s ∧
  currentIndex s' = currentIndex s ∧ isPaused s' = isPaused s ∧
  nextTimerId s' = nextTimerId s ∧
  autoAdvanceInterval s' = autoAdvanceInterval s ∧
  progressInterval s' = progressInterval s ∧
  autoAdvanceDelay s' = autoAdvanceDelay s ∧
  progressFill s' = (fun _ => Percent 0) <$> progressFill s.
Proof.
  by destruct s as [? ? [?|] ? ? ? ? ? [[|?]|] ? ? ? ? ?].
Qed.

Lemma resetProgress_wf s : timers_wf s -> timers_wf (resetProgress s).
Proof.
  intros [Hpos Hids Hnd].
  destruct (resetProgress_frame s) as (_ & _ & _ & _ & Hn & _).
  split.
  - by rewrite Hn.
  - intros t Ht. apply elem_of_resetProgress in Ht as [Ht _].
    rewrite Hn. auto.
  - refine (sublist_NoDup _ _ Hnd _). apply fmap_sublist.
    destruct s as [? ? [?|] ? ? ? ? ? [[|?]|] ? ? ? ? ?];
      unfold resetProgress, truthy; simpl; try done; apply sublist_filter.
Qed.

Lemma resetProgress_inv s : carousel_inv s -> carousel_inv (resetProgress s).
Proof.
  intros [Hwf Hauto Hprog Hpaused].
  destruct (resetProgress_frame s) as (_ & _ & _ & Hq & _ & Ha & Hp & _).
  split.
  - by apply resetProgress_wf.
  - intros t Ht%elem_of_resetProgress. rewrite Ha. by apply Hauto, Ht.
  - intros t Ht%elem_of_resetProgress. rewrite Hp. by apply Hprog, Ht.
  - rewrite Hq. intros Hq' t Ht%elem_of_resetProgress. by apply Hpaused, Ht.
Qed.

Lemma resetProgress_quiet s : quiet s -> quiet (resetProgress s).
Proof. intros Hq t Ht%elem_of_resetProgress. by apply Hq, Ht. Qed.

(** What [startAutoAdvance] leaves in the window and in the handles. *)
Lemma startAutoAdvance_timers s :
  let s' := startAutoAdvance s in
  let n := nextTimerId s in
  timers s' = timers (resetProgress s) ++
              [mkTimer n true 100
                 (cb_progress 0 (100 / (autoAdvanceDelay s / 100)));
               mkTimer (S n) true (autoAdvanceDelay s) cb_goToNext] ∧
  progressInterval s' = Some n ∧ autoAdvanceInterval s' = Some (S n) ∧
  nextTimerId s' = S (S n).
Proof.
  destruct s as [? ? [?|] ? ? ? ? ? [[|?]|] ? ? ? ? ?];
    unfold startAutoAdvance, resetProgress, truthy; simpl;
    by rewrite <- app_assoc.
Qed.

Lemma startAutoAdvance_frame s :
  let s' := startAutoAdvance s in
  cards s' = cards s ∧ indicators s' = indicators s ∧
  currentIndex s' = currentIndex s ∧ isPaused s' = isPaused s ∧
  autoAdvanceDelay s' = autoAdvanceDelay s ∧
  progressFill s' = (fun _ => Percent 0) <$> progressFill s.
Proof.
  by destruct s as [? ? [?|] ? ? ? ? ? [[|?]|] ? ? ? ? ?].
Qed.

Lemma startAutoAdvance_wf s : timers_wf s -> timers_wf (startAutoAdvance s).
Proof.
  intros Hwf%resetProgress_wf.
  destruct (startAutoAdvance_timers s) as (Ht & _ & _ & Hn).
  destruct (resetProgress_frame s) as (_ & _ & _ & _ & Hn' & _).
  destruct Hwf as [Hpos Hids Hnd]. rewrite Hn' in *.
  split.
  - rewrite Hn. lia.
  - intros t. rewrite Ht, Hn, elem_of_app, !elem_of_cons, elem_of_nil.
    intros [Hin | [-> | [-> | []]]]; simpl; [specialize (Hids t Hin)|..]; lia.
  - rewrite Ht, fmap_app. apply NoDup_app. split; [done|]. split.
    + intros x (t & -> & Hin)%list_elem_of_fmap. specialize (Hids t Hin).
      simpl. rewrite !elem_of_cons, elem_of_nil. lia.
    + simpl. apply NoDup_cons. split; [|apply NoDup_singleton].
      rewrite list_elem_of_singleton. lia.
Qed.

(** Started from a quiet window, exactly one timer of each kind is live. *)
Lemma startAutoAdvance_live s :
  quiet s ->
  let s' := startAutoAdvance s in
  autoAdvanceTimers s' =
    [mkTimer (S (nextTimerId s)) true (autoAdvanceDelay s) cb_goToNext] ∧
  progressTimers s' =
    [mkTimer (nextTimerId s) true 100
       (cb_progress 0 (100 / (autoAdvanceDelay s / 100)))].
Proof.
  intros Hq%resetProgress_quiet s'. subst s'.
  destruct (startAutoAdvance_timers s) as (Ht & _).
  unfold autoAdvanceTimers, progressTimers. rewrite Ht, !filter_app.
  assert (filter is_auto (timers (resetProgress s)) = []) as ->.
  { apply elem_of_nil_inv. intros t [Hk Hin]%list_elem_of_filter.
    by destruct (Hq t Hin). }
  assert (filter is_progress (timers (resetProgress s)) = []) as ->.
  { apply elem_of_nil_inv. intros t [Hk Hin]%list_elem_of_filter.
    by destruct (Hq t Hin). }
  done.
Qed.

Lemma unpaused_inv s :
  timers_wf s ->
  (forall t, t ∈ timers s -> is_auto t -> autoAdvanceInterval s = Some (timer_id t)) ->
  (forall t, t ∈ timers s -> is_progress t -> progressInterval s = Some (timer_id t)) ->
  carousel_inv (set_isPaused false s).
Proof.
  intros Hwf Ha Hp.
  split; [exact (timers_wf_ext s (set_isPaused false s) eq_refl eq_refl Hwf)|exact Ha|exact Hp|].
  intros Hq. discriminate Hq.
Qed.

(** Started from a quiet window, the handles point at the two new timers. *)
Lemma startAutoAdvance_handles s :
  timers_wf s -> quiet s ->
  let s' := startAutoAdvance s in
  timers_wf s' ∧
  (forall t, t ∈ timers s' -> is_auto t -> autoAdvanceInterval s' = Some (timer_id t)) ∧
  (forall t, t ∈ timers s' -> is_progress t -> progressInterval s' = Some (timer_id t)).
Proof.
  intros Hwf Hq s'.
  pose proof (startAutoAdvance_wf s Hwf) as Hwf'.
  destruct (startAutoAdvance_live s Hq) as [Ha Hg].
  destruct (startAutoAdvance_timers s) as (_ & Hph & Hah & _).
  fold s' in Hwf', Ha, Hg, Hph, Hah. clearbody s'.
  split; [exact Hwf'|]. split.
  - intros t Hin Hk. rewrite Hah.
    assert (t ∈ autoAdvanceTimers s') as Hin' by by apply list_elem_of_filter.
    rewrite Ha in Hin'. by apply list_elem_of_singleton in Hin' as ->.
  - intros t Hin Hk. rewrite Hph.
    assert (t ∈ progressTimers s') as Hin' by by apply list_elem_of_filter.
    rewrite Hg in Hin'. by apply list_elem_of_singleton in Hin' as ->.
Qed.

Lemma resumeAutoAdvance_inv s :
  carousel_inv s -> carousel_inv (resumeAutoAdvance s).
Proof.
  intros Hinv. unfold resumeAutoAdvance.
  destruct (isPaused s) eqn:Hp.
  - destruct Hinv as [Hwf Hauto Hprog _]. by apply unpaused_inv.
  - destruct (pauseAutoAdvance_inv s Hinv) as [[Hwf _ _ _] Hq].
    destruct (startAutoAdvance_handles _ Hwf Hq) as (Hwf' & Ha & Hg).
    by apply unpaused_inv.
Qed.

End Starting.

Section Handlers.

Lemma setTimeout_inv delay s :
  carousel_inv s -> carousel_inv (snd (setTimeout cb_removePrev delay s)).
Proof.
  intros [Hwf Hauto Hprog Hpaused]. split.
  - by apply setTimer_wf.
  - intros t [Ht | ->]%elem_of_setTimer Hk; [by apply Hauto|done].
  - intros t [Ht | ->]%elem_of_setTimer Hk; [by apply Hprog|done].
  - intros Hq t [Ht | ->]%elem_of_setTimer; [by apply Hpaused|].
    split; by intros ?.
Qed.

Lemma goToSlide_inv index s :
  carousel_inv s -> carousel_inv (state_of (goToSlide index s)).
Proof.
  intros Hinv. unfold goToSlide.
  destruct (nodeAt (cards s) (currentIndex s)); [|done]. cbv zeta.
  match goal with
  | |- context [nodeAt (cards ?x) (currentIndex ?x)] =>
      assert (carousel_inv x) as Hx; [|destruct (nodeAt (cards x) (currentIndex x))]
  end.
  - eapply carousel_inv_ext;
      [| | | | |apply (setTimeout_inv 600), Hinv]; reflexivity.
  - simpl. apply resumeAutoAdvance_inv, resetProgress_inv.
    eapply carousel_inv_ext; [| | | | |exact Hx]; reflexivity.
  - exact Hx.
Qed.

Lemma toggle_inv c s : carousel_inv s -> carousel_inv (toggle c s).
Proof.
  intros Hinv. unfold toggle.
  destruct (cards s !! c) as [card|]; [|done].
  destruct (card_pTextContainer card) as [textContainer|]; [|done].
  destruct (classList.contains textContainer "expanded").
  - apply resumeAutoAdvance_inv.
    eapply carousel_inv_ext; [| | | | |exact Hinv]; reflexivity.
  - apply pauseAutoAdvance_inv.
    eapply carousel_inv_ext; [| | | | |exact Hinv]; reflexivity.
Qed.

Lemma clearInterval_inv id s : carousel_inv s -> carousel_inv (clearInterval id s).
Proof.
  intros [Hwf Hauto Hprog Hpaused]. split.
  - by apply clearInterval_wf.
  - intros t [Ht _]%elem_of_clearInterval. by apply Hauto.
  - intros t [Ht _]%elem_of_clearInterval. by apply Hprog.
  - intros Hq t [Ht _]%elem_of_clearInterval. by apply Hpaused.
Qed.

(** A tick rewrites the closure variable of the progress timer in place. *)
Lemma progress_tick_inv slot t p s :
  timers s !! slot = Some t -> is_progress t ->
  carousel_inv s ->
  carousel_inv
    (set_timers (alter (set_timer_cb (cb_progress p
                          match timer_cb t with
                          | cb_progress _ inc => inc
                          | _ => 0%float
                          end)) slot (timers s)) s).
Proof.
  intros Hslot Hk [[Hpos Hids Hnd] Hauto Hprog Hpaused].
  set (f := set_timer_cb _).
  assert (forall t', t' ∈ alter f slot (timers s) ->
            exists t0, t0 ∈ timers s ∧ timer_id t' = timer_id t0 ∧
                       (is_auto t' -> is_auto t0) ∧
                       (is_progress t' -> is_progress t0)) as Hback.
  { intros t' (i & Hi)%list_elem_of_lookup.
    destruct (decide (i = slot)) as [->|Hne].
    - rewrite list_lookup_alter_eq, Hslot in Hi. simpl in Hi.
      injection Hi as <-. exists t. split; [by eapply list_elem_of_lookup_2|].
      split; [done|]. split; [done|]. done.
    - rewrite list_lookup_alter_ne in Hi by done.
      exists t'. split; [by eapply list_elem_of_lookup_2|]. done. }
  split.
  - split; [done| |].
    + intros t' (t0 & Hin & Hid & _)%Hback. simpl. rewrite Hid. by apply Hids.
    + simpl. rewrite (list_fmap_alter timer_id f id).
      * by rewrite list_alter_id.
      * by apply Forall_true.
  - intros t' (t0 & Hin & Hid & Ha & _)%Hback Ht'. simpl. rewrite Hid. auto.
  - intros t' (t0 & Hin & Hid & _ & Hp)%Hback Ht'. simpl. rewrite Hid. auto.
  - intros Hq. exfalso. simpl in Hq.
    destruct (Hpaused Hq t) as [_ Hn]; [by eapply list_elem_of_lookup_2|done].
Qed.

Lemma spend_inv t s : carousel_inv s -> carousel_inv (spend t s).
Proof.
  intros Hinv. unfold spend. destruct (timer_repeat t); [done|].
  by apply clearInterval_inv.
Qed.

Lemma fire_inv id s : carousel_inv s -> carousel_inv (state_of (fire id s)).
Proof.
  intros Hinv. unfold fire.
  destruct (list_find _ (timers s)) as [[slot t]|] eqn:Hfind; [|done].
  apply list_find_Some in Hfind as (Hslot & Hid & _).
  destruct (timer_cb t) as [|progress increment|] eqn:Hcb.
  - by apply goToSlide_inv, spend_inv.
  - pose proof (progress_tick_inv slot t (progress_tick progress increment) s
                  Hslot) as Htick.
    unfold is_progress in Htick. rewrite Hcb in Htick.
    specialize (Htick I Hinv). apply (spend_inv t) in Htick.
    cbv zeta. simpl. destruct (progressFill _); simpl;
      (eapply carousel_inv_ext; [| | | | |exact Htick]; reflexivity).
  - pose proof (spend_inv t s Hinv) as Hc.
    cbv zeta. destruct (nodeAt _ _); [|done]. simpl.
    eapply carousel_inv_ext; [| | | | |exact Hc]; reflexivity.
Qed.

End Handlers.

Section Reachability.

Lemma new_PortfolioCarousel_inv mobile d :
  carousel_inv (new_PortfolioCarousel mobile d).
Proof.
  unfold new_PortfolioCarousel. cbv zeta.
  set (s0 := mkState _ _ _ _ _ _ _ _ _ _ _ _ _ _).
  assert (timers_wf s0) as Hwf.
  { split; simpl; [lia| |constructor]. intros t Ht. by apply elem_of_nil in Ht. }
  assert (quiet s0) as Hq.
  { intros t Ht. by apply elem_of_nil in Ht. }
  destruct (cards s0); [by apply quiet_inv|].
  unfold init.
  destruct (startAutoAdvance_handles s0 Hwf Hq) as (Hwf' & Ha & Hg).
  destruct (startAutoAdvance_frame s0) as (_ & _ & _ & Hp & _).
  split; [done|done|done|]. rewrite Hp. intros Hp'. discriminate Hp'.
Qed.

Lemma pageLoad_inv mobile d : carousel_inv (pageLoad mobile d).
Proof.
  eapply carousel_inv_ext; [| | | | |apply (new_PortfolioCarousel_inv mobile d)];
    reflexivity.
Qed.

Lemma video_inv (f : list Card -> list Card) s :
  carousel_inv s -> carousel_inv (set_cards (f (cards s)) s).
Proof.
  intros Hinv. eapply carousel_inv_ext; [| | | | |exact Hinv]; reflexivity.
Qed.

Lemma on_intersection_inv c b s :
  carousel_inv s -> carousel_inv (on_intersection c b s).
Proof.
  intros Hinv. unfold on_intersection.
  destruct (isMobile s), b, (c =? getCurrentIndex s)%nat; simpl;
    first [exact Hinv | eapply carousel_inv_ext; [| | | | |exact Hinv]; reflexivity].
Qed.

Lemma dispatch_inv e s : carousel_inv s -> carousel_inv (state_of (dispatch e s)).
Proof.
  intros Hinv. destruct e; simpl.
  - destruct (_ && _); [by apply goToSlide_inv|done].
  - destruct (_ && _); [by apply goToSlide_inv|done].
  - destruct (_ && _); [by apply goToSlide_inv|done].
  - destruct (_ && _); [by apply toggle_inv|done].
  - destruct (_ && _); [by apply toggle_inv|done].
  - destruct (_ && _); [|done]. unfold on_mouseenter.
    destruct (nodeAt _ _) as [card|]; [|done]. simpl.
    destruct (isExpanded card); [done|]. by apply tempPause_inv.
  - destruct (_ && _); [|done]. unfold on_mouseleave.
    destruct (nodeAt _ _) as [card|]; [|done]. simpl.
    destruct (isExpanded card); [done|]. by apply resumeAutoAdvance_inv.
  - by apply fire_inv.
  - destruct (card_has _ _ _); [|done]. by apply on_intersection_inv.
  - destruct (_ && _); [|done]. simpl.
    eapply carousel_inv_ext; [| | | | |exact Hinv]; reflexivity.
Qed.

Lemma reachable_inv mobile d s : reachable mobile d s -> carousel_inv s.
Proof.
  induction 1 as [|s e _ IH]; [apply pageLoad_inv|by apply dispatch_inv].
Qed.

(** Timers with distinct handles that all carry one handle are at most one. *)
Lemma one_handle_one_timer (l : list Timer) :
  NoDup (timer_id <$> l) ->
  (forall t1 t2, t1 ∈ l -> t2 ∈ l -> timer_id t1 = timer_id t2) ->
  (length l <= 1)%nat.
Proof.
  intros Hnd Hsame. destruct l as [|t1 [|t2 l]]; simpl; [lia|lia|].
  exfalso. apply NoDup_cons in Hnd as [Hnotin _]. apply Hnotin.
  rewrite (Hsame t1 t2); [|apply list_elem_of_here|apply list_elem_of_further, list_elem_of_here].
  simpl. apply list_elem_of_here.
Qed.

Lemma kind_at_most_one (k : Timer -> bool) (h : State -> option nat) s :
  timers_wf s ->
  (forall t, t ∈ timers s -> k t -> h s = Some (timer_id t)) ->
  (length (filter k (timers s)) <= 1)%nat.
Proof.
  intros [_ _ Hnd] Hk. apply one_handle_one_timer.
  - apply (sublist_NoDup _ _ Hnd), fmap_sublist, sublist_filter.
  - intros t1 t2 [H1 Hin1]%list_elem_of_filter [H2 Hin2]%list_elem_of_filter.
    pose proof (Hk t1 Hin1 H1) as E1. pose proof (Hk t2 Hin2 H2) as E2.
    congruence.
Qed.

Lemma quiet_no_timers s :
  quiet s -> autoAdvanceTimers s = [] ∧ progressTimers s = [].
Proof.
  intros Hq. split; apply elem_of_nil_inv;
    intros t [Hk Hin]%list_elem_of_filter; by destruct (Hq t Hin).
Qed.

End Reachability.

(** C9: in every state the page can reach, whatever the markup and whatever
    the events (clicks on the arrows, the indicators and the details buttons,
    the pointer entering and leaving, timers firing, visibility changes,
    taps), at most one auto-advance timer and at most one progress timer are
    live in the window. *)
Theorem at_most_one_timer_of_each_kind mobile d s :
  reachable mobile d s ->
  (length (autoAdvanceTimers s) <= 1)%nat ∧ (length (progressTimers s) <= 1)%nat.
Proof.
  intros [Hwf Ha Hg _]%reachable_inv. split.
  - exact (kind_at_most_one is_auto autoAdvanceInterval s Hwf Ha).
  - exact (kind_at_most_one is_progress progressInterval s Hwf Hg).
Qed.

Lemma at_most_one_timer_of_each_kind_witness :
  let s := run (pageLoad false twoSlides)
             [MouseEnter; ClickNext; MouseLeave; TimerFires 7] in
  (length (autoAdvanceTimers s) <= 1)%nat ∧ (length (progressTimers s) <= 1)%nat.
Proof.
  apply (at_most_one_timer_of_each_kind false twoSlides).
  repeat apply reach_step. apply reach_load.
Defined.
